(** * A shallow embedding of the brainfuck interpreter of src/main.rs

    A Rust [&str] or [String] is modelled as a Rocq [string] holding its
    UTF-8 bytes; [chars] decodes it into Rust [char]s as [str::chars] does,
    and [valid_utf8] tells which byte strings are valid UTF-8 (what
    [std::env::args] and [read_to_string] check).

    Arithmetic follows Rust's default (debug) profile, the one [cargo run]
    and [cargo build] use: [u8] and [usize] arithmetic is overflow-checked
    and panics instead of wrapping; slice indexing is bounds-checked and
    panics out of range; [unwrap] on an [Err] panics. *)

From Stdlib Require Import String Ascii List ZArith Lia Bool.
Import ListNotations.
Open Scope Z_scope.
Set Warnings "-register-all,-abstract-large-number".

(** ** Tokens (lines 3-20) *)

Inductive Token : Type :=
| OpenLoop
| CloseLoop
| Expr (c : ascii)
| Comment.

(** ** Characters *)

(** A Rust [char]: one of the 128 ASCII characters, or a character outside
    ASCII given by its code point. *)
Inductive char : Type :=
| AsciiChar (a : ascii)
| OtherChar (code : Z).

(** The value of a byte. *)
Definition byte (b : ascii) : Z := Z.of_nat (nat_of_ascii b).

Definition is_continuation (v : Z) : bool := (128 <=? v) && (v <? 192).

(** The payload bits of a non-ASCII byte [v] that starts a character, and
    the number of continuation bytes that follow it.  A stray continuation
    byte stands alone. *)
Definition lead (v : Z) : Z * nat :=
  if v <? 192 then (v, 0%nat)
  else if v <? 224 then (Z.land v 31, 1%nat)
  else if v <? 240 then (Z.land v 15, 2%nat)
  else (Z.land v 7, 3%nat).

(** UTF-8 decoding: [acc] holds the bits of the character being decoded and
    [k] the number of continuation bytes still expected.  On valid UTF-8
    this is the decoding of [str::chars]; a sequence cut short (which no
    [&str] contains) is closed as one non-ASCII character, so an ASCII byte
    always stands for its own character. *)
Fixpoint utf8_decode (acc : Z) (k : nat) (bs : list ascii) : list char :=
  match bs with
  | [] => match k with O => [] | S _ => [OtherChar acc] end
  | b :: t =>
    let v := byte b in
    if (k =? 0)%nat || negb (is_continuation v) then
      match k with O => [] | S _ => [OtherChar acc] end ++
      (if v <? 128 then AsciiChar b :: utf8_decode 0 0 t
       else let '(bits, n) := lead v in
            match n with
            | O => OtherChar bits :: utf8_decode 0 0 t
            | S _ => utf8_decode bits n t
            end)
    else
      let acc' := Z.lor (Z.shiftl acc 6) (Z.land v 63) in
      match k with
      | 1%nat => OtherChar acc' :: utf8_decode 0 0 t
      | _ => utf8_decode acc' (k - 1) t
      end
  end.

(** [str::chars] *)
Definition chars (s : string) : list char := utf8_decode 0 0 (list_ascii_of_string s).

(** The second byte of a multi-byte sequence, by its first byte [v]
    (the ranges of the Unicode standard's well-formed UTF-8 table). *)
Definition second_ok (v v1 : Z) : bool :=
  if v =? 224 then (160 <=? v1) && (v1 <=? 191)
  else if v =? 237 then (128 <=? v1) && (v1 <=? 159)
  else if v =? 240 then (144 <=? v1) && (v1 <=? 191)
  else if v =? 244 then (128 <=? v1) && (v1 <=? 143)
  else is_continuation v1.

(** Well-formed UTF-8, the check of [String::from_utf8]. *)
Fixpoint valid_utf8 (bs : list ascii) : bool :=
  match bs with
  | [] => true
  | b :: t =>
    let v := byte b in
    if v <? 128 then valid_utf8 t
    else match t with
    | [] => false
    | b1 :: t1 =>
      if (194 <=? v) && (v <=? 223) then is_continuation (byte b1) && valid_utf8 t1
      else match t1 with
      | [] => false
      | b2 :: t2 =>
        if (224 <=? v) && (v <=? 239) then
          second_ok v (byte b1) && is_continuation (byte b2) && valid_utf8 t2
        else match t2 with
        | [] => false
        | b3 :: t3 =>
          if (240 <=? v) && (v <=? 244) then
            second_ok v (byte b1) && is_continuation (byte b2)
            && is_continuation (byte b3) && valid_utf8 t3
          else false
        end
      end
    end
  end.

(** [impl From<char> for Token]: every pattern is an ASCII character. *)
Definition token_of_char (value : char) : Token :=
  match value with
  | AsciiChar value =>
    if (Ascii.eqb value ">" || Ascii.eqb value "<" || Ascii.eqb value "."
        || Ascii.eqb value "," || Ascii.eqb value "+" || Ascii.eqb value "-")%bool
    then Expr value
    else if Ascii.eqb value "[" then OpenLoop
    else if Ascii.eqb value "]" then CloseLoop
    else Comment
  | OtherChar _ => Comment
  end.

(** ** Abstract syntax (lines 22-31) *)

Inductive Node : Type :=
| Incr
| Decr
| ShiftLeft
| ShiftRight
| Output
| Input
| Loop (children : list Node).

Definition Ast := list Node.
Definition Tokens := list Token.

(** [Result<_, Box<dyn Error>>]: the error is a message. *)
Inductive result (A : Type) : Type :=
| Ok (a : A)
| Err (msg : string).
Arguments Ok {A} a.
Arguments Err {A} msg.

(** [fn tokenize(input: &str) -> Tokens] *)
Definition tokenize (input : string) : Tokens :=
  map token_of_char (chars input).

(** [fn build_ast(tokens: &mut I)]: the shared iterator is threaded
    explicitly, the call returns the tokens it left unconsumed.  [ast] is the
    vector being built by the [while let] loop.  [fuel] bounds the recursion
    ([None] when it runs out); [build] below gives it enough fuel, and
    [build_ast_enough_fuel] shows that it never runs out there. *)
Fixpoint build_ast (fuel : nat) (tokens : Tokens) (ast : Ast)
  : option (result Ast * Tokens) :=
  match fuel with
  | O => None
  | S fuel' =>
    match tokens with
    | [] => Some (Ok ast, [])
    | token :: tokens' =>
      match token with
      | Expr c =>
        if Ascii.eqb c ">" then build_ast fuel' tokens' (ast ++ [ShiftRight])
        else if Ascii.eqb c "<" then build_ast fuel' tokens' (ast ++ [ShiftLeft])
        else if Ascii.eqb c "+" then build_ast fuel' tokens' (ast ++ [Incr])
        else if Ascii.eqb c "-" then build_ast fuel' tokens' (ast ++ [Decr])
        else if Ascii.eqb c "." then build_ast fuel' tokens' (ast ++ [Output])
        else if Ascii.eqb c "," then build_ast fuel' tokens' (ast ++ [Input])
        else Some (Err "unknown expression", tokens')
      | OpenLoop =>
        match build_ast fuel' tokens' [] with
        | Some (Ok children, rest) =>
          build_ast fuel' rest (ast ++ [Loop children])
        | Some (Err e, rest) => Some (Err e, rest)
        | None => None
        end
      | CloseLoop => Some (Ok ast, tokens')
      | Comment => build_ast fuel' tokens' ast
      end
    end
  end.

Definition build (tokens : Tokens) (ast : Ast) : option (result Ast * Tokens) :=
  build_ast (S (length tokens)) tokens ast.

(** [fn parse(input: &str)] *)
Definition parse (input : string) : option (result Ast) :=
  match build (tokenize input) [] with
  | Some (r, _) => Some r
  | None => None
  end.

(** ** The evaluator (lines 74-121) *)

(** The execution state: the tape [data : &mut [u8]] (cells as [Z] in
    [0, 255]), the pointer [ptr : &mut usize], the bytes still to be read
    from standard input and the bytes written so far to [output]. *)
Record State : Type := mkState {
  data : list Z;
  ptr : Z;
  stdin : list Z;
  stdout : list Z
}.

Definition u8_max : Z := 255.
Definition usize_max : Z := 2 ^ 64 - 1.

(** The panics the code can raise. *)
Inductive Panic : Type :=
| IndexOutOfBounds      (* data[*ptr] with *ptr >= data.len() *)
| AddOverflow           (* u8 or usize `+= 1` overflow *)
| SubOverflow           (* u8 or usize `-= 1` overflow *)
| UnwrapReadExact.      (* read_exact(..).unwrap() at end of stdin *)

(** Outcome of a run: finished with [Ok(())] in a final state, returned
    [Err], panicked, or ran out of the fuel that bounds the loops. *)
Inductive Outcome : Type :=
| Done (st : State)
| Failed (msg : string)
| Panicked (p : Panic)
| OutOfFuel.

(** Bounds-checked read of [data[*ptr]]. *)
Definition cell (st : State) : option Z :=
  if ptr st <? Z.of_nat (length (data st))
  then nth_error (data st) (Z.to_nat (ptr st))
  else None.

Fixpoint list_set {A : Type} (l : list A) (n : nat) (v : A) : list A :=
  match l, n with
  | [], _ => []
  | _ :: l', O => v :: l'
  | x :: l', S n' => x :: list_set l' n' v
  end.

(** [data[*ptr] = v], only used after a successful bounds check. *)
Definition set_cell (st : State) (v : Z) : State :=
  mkState (list_set (data st) (Z.to_nat (ptr st)) v) (ptr st) (stdin st) (stdout st).

Definition set_ptr (st : State) (p : Z) : State :=
  mkState (data st) p (stdin st) (stdout st).

(** [fn _interpret]: the [for node in ast] loop, and the body of that loop
    for one node ([interpret_node]), whose [Loop] case is the
    [while data[*ptr] != 0] loop.  Both consume one unit of fuel per call. *)
Fixpoint _interpret (fuel : nat) (ast : Ast) (st : State) {struct fuel} : Outcome :=
  match fuel with
  | O => OutOfFuel
  | S fuel' =>
    match ast with
    | [] => Done st
    | node :: ast' =>
      match interpret_node fuel' node st with
      | Done st' => _interpret fuel' ast' st'
      | o => o
      end
    end
  end
with interpret_node (fuel : nat) (node : Node) (st : State) {struct fuel} : Outcome :=
  match fuel with
  | O => OutOfFuel
  | S fuel' =>
    match node with
    | Incr =>
      match cell st with
      | None => Panicked IndexOutOfBounds
      | Some v => if v <? u8_max then Done (set_cell st (v + 1))
                  else Panicked AddOverflow
      end
    | Decr =>
      match cell st with
      | None => Panicked IndexOutOfBounds
      | Some v => if 0 <? v then Done (set_cell st (v - 1))
                  else Panicked SubOverflow
      end
    | ShiftLeft =>
      if 0 <? ptr st then Done (set_ptr st (ptr st - 1)) else Panicked SubOverflow
    | ShiftRight =>
      if ptr st <? usize_max then Done (set_ptr st (ptr st + 1))
      else Panicked AddOverflow
    | Output =>
      match cell st with
      | None => Panicked IndexOutOfBounds
      | Some v => Done (mkState (data st) (ptr st) (stdin st) (stdout st ++ [v]))
      end
    | Input =>
      match stdin st with
      | [] => Panicked UnwrapReadExact
      | b :: rest =>
        let st1 := mkState (data st) (ptr st) rest (stdout st) in
        match cell st1 with
        | None => Panicked IndexOutOfBounds
        | Some _ => Done (set_cell st1 b)
        end
      end
    | Loop children =>
      match cell st with
      | None => Panicked IndexOutOfBounds
      | Some v =>
        if v =? 0 then Done st
        else match _interpret fuel' children st with
             | Done st' => interpret_node fuel' (Loop children) st'
             | o => o
             end
      end
    end
  end.

Definition tape_len : nat := 30000.

Definition initial_state (input : list Z) : State :=
  mkState (repeat 0 tape_len) 0 input [].

(** [fn interpret(input: &str)], with the bytes available on standard input
    as a parameter and the final state (which holds what was written to
    standard output) in place of [()]. *)
Definition interpret (fuel : nat) (input : string) (stdin_bytes : list Z) : Outcome :=
  match parse input with
  | Some (Ok ast) => _interpret fuel ast (initial_state stdin_bytes)
  | Some (Err e) => Failed e
  | None => OutOfFuel
  end.

(** ** Auxiliary notions for the statements *)

(** The eight instruction symbols; every other character is a comment. *)
Definition instruction_chars : list ascii := [">"; "<"; "+"; "-"; "."; ","; "["; "]"]%char.

(** The six characters an [Expr] token can carry for [build_ast] to accept it. *)
Definition expr_chars : list ascii := [">"; "<"; "+"; "-"; "."; ","]%char.

Definition is_instruction_char (c : ascii) : bool :=
  existsb (Ascii.eqb c) instruction_chars.

(** The program text with every non-instruction character removed. *)
Definition strip (s : string) : list ascii :=
  filter is_instruction_char (list_ascii_of_string s).

Definition is_instr_char (c : char) : bool :=
  match c with AsciiChar a => is_instruction_char a | OtherChar _ => false end.

Definition drop_comments (tokens : Tokens) : Tokens :=
  filter (fun t => match t with Comment => false | _ => true end) tokens.

(** Bracket depth reached after reading [tokens] from depth [d]; [None]
    when a [CloseLoop] is met at depth 0. *)
Fixpoint depth (d : nat) (tokens : Tokens) : option nat :=
  match tokens with
  | [] => Some d
  | OpenLoop :: t => depth (S d) t
  | CloseLoop :: t => match d with O => None | S d' => depth d' t end
  | _ :: t => depth d t
  end.

(** Every [OpenLoop] of [tokens] is closed within [tokens] and no
    [CloseLoop] of [tokens] is at the outermost level. *)
Definition balanced (tokens : Tokens) : Prop := depth 0 tokens = Some 0%nat.

(** ** The command line (lines 123-132) *)

(** The ways [main] can panic besides a panic of the evaluator. *)
Inductive MainPanic : Type :=
| ArgsNotUnicode                 (* std::env::args() on an argument that is not valid Unicode *)
| ArgsIndexOutOfBounds           (* args[0] with args empty *)
| ReadToStringUnwrap             (* read_to_string(path).unwrap() *)
| InterpretUnwrap (msg : string) (* interpret(&input).unwrap() on Err *)
| EvalPanic (p : Panic).

Inductive MainOutcome : Type :=
| Usage (stderr_line : string)   (* eprintln! of the usage line, then return *)
| Finished (st : State)
| MainPanicked (reason : MainPanic)
| MainOutOfFuel.

(** [fn main]: [args] are the bytes of the process arguments, collected by
    [std::env::args()], which panics on one that is not valid UTF-8; [fs]
    maps a path to the bytes of the file ([None] when it cannot be read),
    and [read_to_string] fails on bytes that are not valid UTF-8. *)
Definition main (args : list string) (fs : string -> option string)
    (fuel : nat) (stdin_bytes : list Z) : MainOutcome :=
  if negb (forallb (fun a => valid_utf8 (list_ascii_of_string a)) args) then
    MainPanicked ArgsNotUnicode
  else if (length args <? 2)%nat then
    match args with
    | [] => MainPanicked ArgsIndexOutOfBounds
    | a0 :: _ => Usage ("usage: " ++ a0 ++ " brainfuck")
    end
  else
    match nth_error args 1 with
    | None => MainPanicked ArgsIndexOutOfBounds
    | Some bf_file_path =>
      match fs bf_file_path with
      | None => MainPanicked ReadToStringUnwrap
      | Some contents =>
        if negb (valid_utf8 (list_ascii_of_string contents)) then
          MainPanicked ReadToStringUnwrap
        else
          let input := contents in
          match interpret fuel input stdin_bytes with
          | Done st => Finished st
          | Failed e => MainPanicked (InterpretUnwrap e)
          | Panicked p => MainPanicked (EvalPanic p)
          | OutOfFuel => MainOutOfFuel
          end
      end
    end.

(** ** Auxiliary notions for the extra properties *)

(** A source text for an instruction tree: the inverse of [parse]. *)
Fixpoint print_node (n : Node) : list ascii :=
  match n with
  | Incr => ["+"%char]
  | Decr => ["-"%char]
  | ShiftLeft => ["<"%char]
  | ShiftRight => [">"%char]
  | Output => ["."%char]
  | Input => [","%char]
  | Loop children =>
    "["%char :: (fix print_seq (l : list Node) : list ascii :=
                   match l with [] => [] | m :: l' => print_node m ++ print_seq l' end)
                  children ++ ["]"%char]
  end.

Fixpoint print_seq (ast : Ast) : list ascii :=
  match ast with [] => [] | n :: ast' => print_node n ++ print_seq ast' end.

Definition print (ast : Ast) : string := string_of_list_ascii (print_seq ast).

(** Whether a node contains an [Output], resp. an [Input], node. *)
Fixpoint writes (n : Node) : bool :=
  match n with
  | Output => true
  | Loop children => existsb writes children
  | _ => false
  end.

Fixpoint reads (n : Node) : bool :=
  match n with
  | Input => true
  | Loop children => existsb reads children
  | _ => false
  end.

(** The node [build_ast] appends for an [Expr] token, if any. *)
Definition node_of_expr (c : ascii) : option Node :=
  if Ascii.eqb c ">" then Some ShiftRight
  else if Ascii.eqb c "<" then Some ShiftLeft
  else if Ascii.eqb c "+" then Some Incr
  else if Ascii.eqb c "-" then Some Decr
  else if Ascii.eqb c "." then Some Output
  else if Ascii.eqb c "," then Some Input
  else None.

(** Induction on instruction trees, with the hypothesis on every child of
    a [Loop]. *)
Section NodeInd.
Variable P : Node -> Prop.
Hypothesis HIncr : P Incr.
Hypothesis HDecr : P Decr.
Hypothesis HShiftLeft : P ShiftLeft.
Hypothesis HShiftRight : P ShiftRight.
Hypothesis HOutput : P Output.
Hypothesis HInput : P Input.
Hypothesis HLoop : forall children, Forall P children -> P (Loop children).

Fixpoint node_ind' (n : Node) : P n :=
  match n with
  | Incr => HIncr
  | Decr => HDecr
  | ShiftLeft => HShiftLeft
  | ShiftRight => HShiftRight
  | Output => HOutput
  | Input => HInput
  | Loop children =>
    HLoop children
      ((fix go (l : list Node) : Forall P l :=
          match l with
          | [] => Forall_nil P
          | m :: l' => Forall_cons m (node_ind' m) (go l')
          end) children)
  end.
End NodeInd.

(** All values of a list are bytes. *)
Definition bytes (l : list Z) : Prop := Forall (fun v => 0 <= v <= u8_max) l.

(** The state invariant the evaluator keeps: byte-valued tape, input and
    output, and a pointer in the [usize] range. *)
Definition state_ok (st : State) : Prop :=
  bytes (data st) /\ bytes (stdin st) /\ bytes (stdout st) /\ 0 <= ptr st <= usize_max.

(** ** The parser's fuel is enough *)

Ltac expr_cases :=
  repeat match goal with
  | |- context [if Ascii.eqb ?c ?d then _ else _] => destruct (Ascii.eqb c d)
  | H : context [if Ascii.eqb ?c ?d then _ else _] |- _ => destruct (Ascii.eqb c d)
  end.

Section BuildFuel.

Local Open Scope nat_scope.

Lemma build_ast_rest_length : forall fuel tokens ast r rest,
  build_ast fuel tokens ast = Some (r, rest) -> length rest <= length tokens.
Proof.
  induction fuel as [|fuel IH]; intros tokens ast r rest H; [discriminate|].
  destruct tokens as [|token tokens']; simpl in H.
  - inversion H; subst; simpl; lia.
  - destruct token; simpl.
    + destruct (build_ast fuel tokens' []) as [[[children|e] rest1]|] eqn:E.
      * apply IH in H. apply IH in E. lia.
      * inversion H; subst. apply IH in E. lia.
      * discriminate.
    + inversion H; subst; lia.
    + expr_cases; try (apply IH in H; lia); inversion H; subst; simpl; lia.
    + apply IH in H. lia.
Qed.

Lemma build_ast_fuel_irrelevant : forall fuel1 fuel2 tokens ast,
  length tokens < fuel1 -> length tokens < fuel2 ->
  build_ast fuel1 tokens ast = build_ast fuel2 tokens ast.
Proof.
  induction fuel1 as [|fuel1 IH]; intros fuel2 tokens ast H1 H2; [lia|].
  destruct fuel2 as [|fuel2]; [lia|].
  destruct tokens as [|token tokens']; simpl in *; [reflexivity|].
  destruct token.
  - rewrite (IH fuel2) by lia.
    destruct (build_ast fuel2 tokens' []) as [[[children|e] rest1]|] eqn:E;
      try reflexivity.
    apply build_ast_rest_length in E. apply IH; lia.
  - reflexivity.
  - expr_cases; try reflexivity; apply IH; lia.
  - apply IH; lia.
Qed.

Lemma build_ast_enough_fuel : forall fuel tokens ast,
  length tokens < fuel -> build_ast fuel tokens ast <> None.
Proof.
  induction fuel as [|fuel IH]; intros tokens ast H; [lia|].
  destruct tokens as [|token tokens']; simpl in *; [discriminate|].
  destruct token.
  - destruct (build_ast fuel tokens' []) as [[[children|e] rest1]|] eqn:E;
      try discriminate.
    + apply build_ast_rest_length in E. apply IH; lia.
    + exfalso. apply (IH tokens' []); [lia | exact E].
  - discriminate.
  - expr_cases; try discriminate; apply IH; lia.
  - apply IH; lia.
Qed.

Lemma build_rest_length : forall tokens ast r rest,
  build tokens ast = Some (r, rest) -> length rest <= length tokens.
Proof. intros. eapply build_ast_rest_length; eassumption. Qed.

Lemma build_nil : forall ast, build [] ast = Some (Ok ast, []).
Proof. reflexivity. Qed.

Lemma build_close : forall tokens ast,
  build (CloseLoop :: tokens) ast = Some (Ok ast, tokens).
Proof. reflexivity. Qed.

Lemma build_comment : forall tokens ast,
  build (Comment :: tokens) ast = build tokens ast.
Proof. reflexivity. Qed.

Lemma build_ast_open_step : forall fuel tokens ast,
  build_ast (S fuel) (OpenLoop :: tokens) ast =
  match build_ast fuel tokens [] with
  | Some (Ok children, rest) => build_ast fuel rest (ast ++ [Loop children])
  | Some (Err e, rest) => Some (Err e, rest)
  | None => None
  end.
Proof. reflexivity. Qed.

Lemma build_open : forall tokens ast,
  build (OpenLoop :: tokens) ast =
  match build tokens [] with
  | Some (Ok children, rest) => build rest (ast ++ [Loop children])
  | Some (Err e, rest) => Some (Err e, rest)
  | None => None
  end.
Proof.
  intros. unfold build at 1. simpl length. rewrite build_ast_open_step.
  fold (build tokens []).
  destruct (build tokens []) as [[[children|e] rest]|] eqn:E; try reflexivity.
  apply build_rest_length in E. unfold build.
  apply build_ast_fuel_irrelevant; lia.
Qed.

Lemma build_expr : forall c tokens ast,
  build (Expr c :: tokens) ast =
  if Ascii.eqb c ">" then build tokens (ast ++ [ShiftRight])
  else if Ascii.eqb c "<" then build tokens (ast ++ [ShiftLeft])
  else if Ascii.eqb c "+" then build tokens (ast ++ [Incr])
  else if Ascii.eqb c "-" then build tokens (ast ++ [Decr])
  else if Ascii.eqb c "." then build tokens (ast ++ [Output])
  else if Ascii.eqb c "," then build tokens (ast ++ [Input])
  else Some (Err "unknown expression", tokens).
Proof. reflexivity. Qed.

Lemma build_defined : forall tokens ast, build tokens ast <> None.
Proof. intros. apply build_ast_enough_fuel. lia. Qed.

End BuildFuel.

(** ** Facts about the parser *)

Section ParserFacts.

Local Open Scope nat_scope.

Definition valid_token (t : Token) : bool :=
  match t with Expr c => existsb (Ascii.eqb c) expr_chars | _ => true end.

Lemma token_of_char_valid : forall c, valid_token (token_of_char c) = true.
Proof. intros [[[] [] [] [] [] [] [] []] | code]; reflexivity. Qed.

Lemma token_of_char_comment : forall c,
  is_instruction_char c = match token_of_char (AsciiChar c) with Comment => false | _ => true end.
Proof. intros [[] [] [] [] [] [] [] []]; reflexivity. Qed.

Lemma tokenize_valid : forall s, forallb valid_token (tokenize s) = true.
Proof.
  intros s. unfold tokenize. induction (chars s) as [|c l IH];
    simpl; [reflexivity|]. rewrite token_of_char_valid, IH. reflexivity.
Qed.

Lemma instruction_char_ascii : forall b, is_instruction_char b = true -> (byte b <? 128)%Z = true.
Proof. intros [[] [] [] [] [] [] [] []] H; try discriminate H; reflexivity. Qed.

(** A text of ASCII bytes decodes to one character per byte. *)
Lemma utf8_decode_ascii : forall l, forallb (fun b => byte b <? 128)%Z l = true ->
  utf8_decode 0 0 l = map AsciiChar l.
Proof.
  induction l as [|b l IH]; intros H; [reflexivity|].
  simpl in H. apply andb_prop in H as [Hb H].
  simpl. rewrite Hb. simpl. rewrite IH by exact H. reflexivity.
Qed.

(** The instruction characters of the decoded text are the instruction
    bytes of the text, whatever the decoding state. *)
Lemma utf8_decode_instructions : forall l acc k,
  filter is_instr_char (utf8_decode acc k l) = map AsciiChar (filter is_instruction_char l).
Proof.
  induction l as [|b l IH]; intros acc k.
  - destruct k; reflexivity.
  - assert (Hnot : (byte b <? 128)%Z = false -> is_instruction_char b = false).
    { intros Hv. destruct (is_instruction_char b) eqn:E; [|reflexivity].
      rewrite (instruction_char_ascii b E) in Hv. discriminate. }
    cbn [utf8_decode filter].
    destruct ((k =? 0) || negb (is_continuation (byte b)))%bool eqn:Hcond.
    + rewrite filter_app.
      replace (filter is_instr_char (match k with O => [] | S _ => [OtherChar acc] end))
        with (@nil char) by (destruct k; reflexivity).
      simpl app. destruct (byte b <? 128)%Z eqn:Hv.
      * simpl. rewrite IH. destruct (is_instruction_char b); reflexivity.
      * rewrite (Hnot eq_refl). destruct (lead (byte b)) as [bits [|n]].
        -- simpl. apply IH.
        -- apply IH.
    + assert (Hc : is_instruction_char b = false).
      { apply Hnot. apply orb_false_elim in Hcond as [_ Hc].
        apply negb_false_iff in Hc.
        unfold is_continuation in Hc. apply andb_prop in Hc as [Hc _].
        apply Z.leb_le in Hc. apply Z.ltb_ge. exact Hc. }
      rewrite Hc. destruct k as [|[|k]]; [discriminate| |]; simpl; apply IH.
Qed.

Lemma drop_comments_map : forall l,
  drop_comments (map token_of_char l) = map token_of_char (filter is_instr_char l).
Proof.
  induction l as [|[a|code] l IH]; [reflexivity| |exact IH].
  unfold drop_comments in *. cbn [map filter is_instr_char].
  rewrite token_of_char_comment.
  destruct (token_of_char (AsciiChar a)) eqn:T; cbn [map]; rewrite IH, ?T; reflexivity.
Qed.

Lemma build_ast_rest_suffix : forall fuel tokens ast r rest,
  build_ast fuel tokens ast = Some (r, rest) -> exists pre, tokens = pre ++ rest.
Proof.
  induction fuel as [|fuel IH]; intros tokens ast r rest H; [discriminate|].
  destruct tokens as [|token tokens']; simpl in H.
  - inversion H; subst. exists []. reflexivity.
  - assert (Hcons : forall pre, tokens' = pre ++ rest ->
                    exists pre', token :: tokens' = pre' ++ rest)
      by (intros pre E; exists (token :: pre); rewrite E; reflexivity).
    destruct token.
    + destruct (build_ast fuel tokens' []) as [[[children|e] rest1]|] eqn:E.
      * apply IH in H as [pre2 ->]. apply IH in E as [pre1 E].
        apply (Hcons (pre1 ++ pre2)). rewrite E, app_assoc. reflexivity.
      * inversion H; subst. apply IH in E as [pre1 E]. exact (Hcons pre1 E).
      * discriminate.
    + inversion H; subst. exact (Hcons [] eq_refl).
    + expr_cases; try (apply IH in H as [pre E]; exact (Hcons pre E));
        inversion H; subst; exact (Hcons [] eq_refl).
    + apply IH in H as [pre E]. exact (Hcons pre E).
Qed.

Lemma build_rest_suffix : forall tokens ast r rest,
  build tokens ast = Some (r, rest) -> exists pre, tokens = pre ++ rest.
Proof. intros. eapply build_ast_rest_suffix; eassumption. Qed.

(** On tokens that carry only the six known characters, [build_ast]
    always succeeds. *)
Lemma build_valid_ok : forall n tokens, length tokens <= n ->
  forallb valid_token tokens = true ->
  forall ast, exists a rest, build tokens ast = Some (Ok a, rest).
Proof.
  induction n as [|n IH]; intros tokens Hlen Hv ast.
  { destruct tokens; [|simpl in Hlen; lia]. eexists _, _. apply build_nil. }
  destruct tokens as [|token tokens']; [eexists _, _; apply build_nil|].
  simpl in Hlen, Hv. apply andb_prop in Hv as [Ht Hv].
  destruct token.
  - rewrite build_open.
    destruct (IH tokens' ltac:(lia) Hv []) as [children [rest1 E]]. rewrite E.
    destruct (build_rest_suffix _ _ _ _ E) as [pre ->].
    rewrite forallb_app in Hv. apply andb_prop in Hv as [_ Hv].
    rewrite length_app in Hlen.
    apply IH; [lia | exact Hv].
  - rewrite build_close. eexists _, _. reflexivity.
  - rewrite build_expr. simpl in Ht.
    expr_cases; try (apply IH; [lia | exact Hv]); discriminate.
  - rewrite build_comment. apply IH; [lia | exact Hv].
Qed.

Lemma parse_ok : forall s, exists a, parse s = Some (Ok a).
Proof.
  intros s. unfold parse.
  destruct (build_valid_ok _ (tokenize s) (le_n _) (tokenize_valid s) [])
    as [a [rest E]].
  rewrite E. exists a. reflexivity.
Qed.

(** Removing the [Comment] tokens does not change what is built. *)
Lemma build_drop_comments : forall n tokens, length tokens <= n ->
  forall ast r rest, build tokens ast = Some (r, rest) ->
  build (drop_comments tokens) ast = Some (r, drop_comments rest).
Proof.
  induction n as [|n IH]; intros tokens Hlen ast r rest H.
  { destruct tokens; [|simpl in Hlen; lia].
    rewrite build_nil in H. inversion H; subst. reflexivity. }
  destruct tokens as [|token tokens'].
  { rewrite build_nil in H. inversion H; subst. reflexivity. }
  simpl in Hlen. destruct token; simpl.
  - rewrite build_open in *.
    destruct (build tokens' []) as [[[children|e] rest1]|] eqn:E; try discriminate.
    + rewrite (IH tokens' ltac:(lia) _ _ _ E).
      destruct (build_rest_suffix _ _ _ _ E) as [pre ->].
      rewrite length_app in Hlen. apply IH; [lia | exact H].
    + inversion H; subst. rewrite (IH tokens' ltac:(lia) _ _ _ E). reflexivity.
  - rewrite build_close in *. inversion H; subst. reflexivity.
  - rewrite build_expr in *.
    expr_cases; try (apply IH; [lia | exact H]); inversion H; subst; reflexivity.
  - rewrite build_comment in H. apply IH; [lia | exact H].
Qed.

Lemma drop_comments_tokenize : forall s,
  drop_comments (tokenize s) = map token_of_char (map AsciiChar (strip s)).
Proof.
  intros s. unfold tokenize, chars, strip.
  rewrite drop_comments_map, utf8_decode_instructions. reflexivity.
Qed.

Lemma tokenize_strip : forall s,
  tokenize (string_of_list_ascii (strip s)) = drop_comments (tokenize s).
Proof.
  intros s. rewrite drop_comments_tokenize.
  unfold tokenize, chars. rewrite list_ascii_of_string_of_list_ascii.
  rewrite utf8_decode_ascii; [reflexivity|].
  apply forallb_forall. intros b Hb. unfold strip in Hb. apply filter_In in Hb as [_ Hb].
  exact (instruction_char_ascii b Hb).
Qed.

Lemma parse_strip : forall s, parse s = parse (string_of_list_ascii (strip s)).
Proof.
  intros s. unfold parse. rewrite tokenize_strip.
  destruct (build (tokenize s) []) as [[r rest]|] eqn:E.
  - rewrite (build_drop_comments _ _ (le_n _) _ _ _ E). reflexivity.
  - exfalso. exact (build_defined _ _ E).
Qed.

End ParserFacts.

(** ** Parsing stops at an outermost [CloseLoop] *)

Section OuterClose.

Local Open Scope nat_scope.

Lemma depth_app : forall x y d,
  depth d (x ++ y) = match depth d x with Some e => depth e y | None => None end.
Proof.
  induction x as [|t x IH]; intros y d; [reflexivity|].
  destruct t; simpl; try apply IH. destruct d; [reflexivity | apply IH].
Qed.

Lemma depth_shift : forall x d e k,
  depth d x = Some e -> depth (d + k) x = Some (e + k).
Proof.
  induction x as [|t x IH]; intros d e k H; simpl in *.
  - inversion H; reflexivity.
  - destruct t; try (apply IH; exact H).
    + apply (IH (S d)). exact H.
    + destruct d; [discriminate | apply IH; exact H].
Qed.

Lemma depth_split : forall n t d, length t <= n -> depth (S d) t = Some 0 ->
  exists body after, t = body ++ CloseLoop :: after /\
    balanced body /\ depth d after = Some 0.
Proof.
  induction n as [|n IH]; intros t d Hlen H.
  { destruct t; [discriminate | simpl in Hlen; lia]. }
  destruct t as [|tok t']; [discriminate|]. simpl in Hlen, H.
  destruct tok.
  - destruct (IH t' (S d) ltac:(lia) H) as [b1 [a1 [-> [Hb1 Ha1]]]].
    rewrite length_app in Hlen. simpl in Hlen.
    destruct (IH a1 d ltac:(lia) Ha1) as [b2 [a2 [-> [Hb2 Ha2]]]].
    exists (OpenLoop :: b1 ++ CloseLoop :: b2), a2.
    split; [simpl; rewrite <- app_assoc; reflexivity|]. split; [|exact Ha2].
    unfold balanced. simpl. rewrite depth_app.
    pose proof (depth_shift b1 0 0 1 Hb1) as Hs. simpl in Hs.
    rewrite Hs. exact Hb2.
  - exists [], t'. split; [reflexivity|]. split; [reflexivity | exact H].
  - destruct (IH t' d ltac:(lia) H) as [b [a [-> [Hb Ha]]]].
    exists (Expr c :: b), a. split; [reflexivity|]. split; [exact Hb | exact Ha].
  - destruct (IH t' d ltac:(lia) H) as [b [a [-> [Hb Ha]]]].
    exists (Comment :: b), a. split; [reflexivity|]. split; [exact Hb | exact Ha].
Qed.

Lemma build_balanced_close : forall n tokens, length tokens <= n ->
  balanced tokens -> forall q ast r rest, build tokens ast = Some (r, rest) ->
  build (tokens ++ CloseLoop :: q) ast =
  Some (r, match r with Ok _ => q | Err _ => rest ++ CloseLoop :: q end).
Proof.
  induction n as [|n IH]; intros tokens Hlen Hbal q ast r rest H.
  { destruct tokens; [|simpl in Hlen; lia].
    rewrite build_nil in H. inversion H; subst. reflexivity. }
  destruct tokens as [|tok t'].
  { rewrite build_nil in H. inversion H; subst. reflexivity. }
  unfold balanced in Hbal. simpl in Hlen, Hbal. simpl app.
  destruct tok.
  - destruct (depth_split _ t' 0 (le_n _) Hbal) as [body [after [-> [Hb Ha]]]].
    rewrite length_app in Hlen. simpl in Hlen.
    rewrite build_open in *. rewrite <- app_assoc. simpl app.
    destruct (build body []) as [[rb restb]|] eqn:Eb;
      [|exfalso; exact (build_defined _ _ Eb)].
    rewrite (IH body ltac:(lia) Hb (after ++ CloseLoop :: q) _ _ _ Eb).
    rewrite (IH body ltac:(lia) Hb after _ _ _ Eb) in H.
    destruct rb as [children|e].
    + apply IH; [lia | exact Ha | exact H].
    + inversion H; subst. rewrite <- app_assoc. reflexivity.
  - discriminate.
  - rewrite build_expr in *.
    expr_cases; try (apply IH; [lia | exact Hbal | exact H]);
      inversion H; subst; reflexivity.
  - rewrite build_comment in *. apply IH; [lia | exact Hbal | exact H].
Qed.

Lemma list_ascii_of_string_app : forall p q,
  list_ascii_of_string (p ++ q) = list_ascii_of_string p ++ list_ascii_of_string q.
Proof.
  induction p as [|c p IH]; intros q; simpl; [reflexivity | rewrite IH; reflexivity].
Qed.

Lemma drop_comments_tokenize_app : forall p q,
  drop_comments (tokenize (p ++ q)) = drop_comments (tokenize p) ++ drop_comments (tokenize q).
Proof.
  intros p q. rewrite !drop_comments_tokenize. unfold strip.
  rewrite list_ascii_of_string_app, filter_app, !map_app. reflexivity.
Qed.


Lemma depth_drop_comments : forall t d, depth d (drop_comments t) = depth d t.
Proof.
  induction t as [|tok t IH]; intros d; [reflexivity|].
  destruct tok; simpl; try apply IH. destruct d; [reflexivity | apply IH].
Qed.

Lemma valid_drop_comments : forall t,
  forallb valid_token t = true -> forallb valid_token (drop_comments t) = true.
Proof.
  intros t H. apply forallb_forall. intros tok Hin.
  unfold drop_comments in Hin. apply filter_In in Hin as [Hin _].
  exact (proj1 (forallb_forall _ _) H tok Hin).
Qed.

(** [parse] only depends on the tokens that are not comments. *)
Lemma parse_drop_comments : forall s,
  parse s = match build (drop_comments (tokenize s)) [] with
            | Some (r, _) => Some r
            | None => None
            end.
Proof. intros s. rewrite <- tokenize_strip. apply parse_strip. Qed.

End OuterClose.

(** ** Facts about the evaluator *)

Section EvalFacts.

Lemma interpret_fuel_mono : forall fuel,
  (forall ast st fuel', (fuel <= fuel')%nat -> _interpret fuel ast st <> OutOfFuel ->
     _interpret fuel' ast st = _interpret fuel ast st) /\
  (forall node st fuel', (fuel <= fuel')%nat -> interpret_node fuel node st <> OutOfFuel ->
     interpret_node fuel' node st = interpret_node fuel node st).
Proof.
  induction fuel as [|fuel [IH1 IH2]];
    split; intros x st fuel' Hle H; try (exfalso; apply H; reflexivity).
  - destruct fuel' as [|fuel']; [lia|].
    destruct x as [|node ast']; [reflexivity|]. simpl in *.
    destruct (interpret_node fuel node st) eqn:E; try (exfalso; apply H; reflexivity);
      (rewrite (IH2 node st fuel') by (lia || (rewrite E; discriminate)); rewrite E);
      try reflexivity.
    apply IH1; [lia | exact H].
  - destruct fuel' as [|fuel']; [lia|].
    destruct x; try reflexivity. simpl in *.
    destruct (cell st) as [v|]; [|reflexivity].
    destruct (v =? 0); [reflexivity|].
    destruct (_interpret fuel children st) eqn:E; try (exfalso; apply H; reflexivity);
      (rewrite (IH1 children st fuel') by (lia || (rewrite E; discriminate)); rewrite E);
      try reflexivity.
    apply IH2; [lia | exact H].
Qed.

Lemma interpret_never_failed : forall fuel,
  (forall ast st msg, _interpret fuel ast st <> Failed msg) /\
  (forall node st msg, interpret_node fuel node st <> Failed msg).
Proof.
  induction fuel as [|fuel [IH1 IH2]]; split; intros x st msg; try discriminate.
  - destruct x as [|node ast']; simpl; [discriminate|].
    specialize (IH2 node st msg).
    destruct (interpret_node fuel node st); try discriminate; [apply IH1 | exact IH2].
  - destruct x; simpl.
    7: { destruct (cell st) as [v|]; [|discriminate].
         destruct (v =? 0); [discriminate|].
         specialize (IH1 children st msg).
         destruct (_interpret fuel children st); try discriminate;
           [apply IH2 | exact IH1]. }
    all: repeat match goal with
         | |- context [match ?e with _ => _ end] => destruct e
         end; discriminate.
Qed.

Lemma length_list_set : forall {A} (l : list A) n v, length (list_set l n v) = length l.
Proof. induction l; intros [|n] v; simpl; auto. Qed.

Lemma interpret_tape_length : forall fuel,
  (forall ast st st', _interpret fuel ast st = Done st' -> length (data st') = length (data st)) /\
  (forall node st st', interpret_node fuel node st = Done st' -> length (data st') = length (data st)).
Proof.
  induction fuel as [|fuel [IH1 IH2]]; split; intros x st st' H; try discriminate.
  - destruct x as [|node ast']; simpl in H; [inversion H; reflexivity|].
    destruct (interpret_node fuel node st) as [st1| | |] eqn:E; try discriminate.
    rewrite (IH1 _ _ _ H). exact (IH2 _ _ _ E).
  - destruct x; simpl in H.
    7: { destruct (cell st) as [v|]; [|discriminate].
         destruct (v =? 0); [inversion H; reflexivity|].
         destruct (_interpret fuel children st) as [st1| | |] eqn:E; try discriminate.
         rewrite (IH2 _ _ _ H). exact (IH1 _ _ _ E). }
    all: repeat match goal with
         | H : context [match ?e with _ => _ end] |- _ => destruct e eqn:?
         end; try discriminate; inversion H; subst; simpl;
         try apply length_list_set; reflexivity.
Qed.

End EvalFacts.

(** * The claims *)

(** ** C1 *)

(** C1 (counterexample): the claim says that parse of "[" and of "]" each
    returns a parse error.  Both succeed: "[" gives one [Loop] with an empty
    body, "]" gives the empty sequence. *)
Lemma C1_counterexample :
  parse "[" = Some (Ok [Loop []]) /\ parse "]" = Some (Ok []) /\
  ~ (exists e, parse "[" = Some (Err e)) /\ ~ (exists e, parse "]" = Some (Err e)).
Proof.
  split; [reflexivity|]. split; [reflexivity|].
  split; intros [e E]; discriminate E.
Qed.

(** C1 (amended): parse never returns an error, for any source string;
    unmatched delimiters are accepted: "[" parses to [[Loop []]] (the end of
    input closes the open loop) and "]" parses to the empty sequence. *)
Theorem C1_unmatched_accepted :
  (forall s, exists a, parse s = Some (Ok a)) /\
  parse "[" = Some (Ok [Loop []]) /\ parse "]" = Some (Ok []).
Proof.
  split; [exact parse_ok|]. split; reflexivity.
Qed.

(** ** C2 *)

(** C2 (counterexample): one [Decr] on a zeroed cell does not yield 255 but
    panics, and 256 [Incr] on a zeroed cell panic at the 256th. *)
Lemma C2_counterexample :
  interpret 10 "-" [] = Panicked SubOverflow /\
  _interpret 300 (repeat Incr 256) (initial_state []) = Panicked AddOverflow.
Proof. split; vm_compute; reflexivity. Qed.

(** C2 (amended): [Incr] adds one to the current cell and [Decr] subtracts
    one from it without wraparound: [Incr] on a cell holding 255 and [Decr]
    on a cell holding 0 panic with an arithmetic overflow; hence 256 [Incr]
    on a zeroed cell, or one [Decr] on it, abort the run. *)
Theorem C2_checked_arith : forall fuel st v, cell st = Some v ->
  interpret_node (S fuel) Incr st =
    (if v <? 255 then Done (set_cell st (v + 1)) else Panicked AddOverflow) /\
  interpret_node (S fuel) Decr st =
    (if 0 <? v then Done (set_cell st (v - 1)) else Panicked SubOverflow) /\
  (forall fuel' inp, (300 <= fuel')%nat ->
     _interpret fuel' (repeat Incr 256) (initial_state inp) = Panicked AddOverflow /\
     _interpret fuel' [Decr] (initial_state inp) = Panicked SubOverflow).
Proof.
  intros fuel st v Hc.
  split; [simpl; rewrite Hc; reflexivity|]. split; [simpl; rewrite Hc; reflexivity|].
  intros fuel' inp Hf.
  assert (E1 : _interpret 300 (repeat Incr 256) (initial_state inp) = Panicked AddOverflow)
    by (vm_compute; reflexivity).
  assert (E2 : _interpret 300 [Decr] (initial_state inp) = Panicked SubOverflow)
    by (vm_compute; reflexivity).
  split.
  - rewrite (proj1 (interpret_fuel_mono 300) _ _ _ Hf) by (rewrite E1; discriminate).
    exact E1.
  - rewrite (proj1 (interpret_fuel_mono 300) _ _ _ Hf) by (rewrite E2; discriminate).
    exact E2.
Qed.

Lemma C2_witness :
  cell (initial_state []) = Some 0 /\
  interpret_node 1 Decr (initial_state []) = Panicked SubOverflow /\
  _interpret 300 (repeat Incr 256) (initial_state []) = Panicked AddOverflow.
Proof.
  assert (Hc : cell (initial_state []) = Some 0) by (vm_compute; reflexivity).
  destruct (C2_checked_arith 0 (initial_state []) 0 Hc) as [_ [HD HR]].
  split; [exact Hc|]. split; [exact HD|].
  exact (proj1 (HR 300%nat [] (le_n _))).
Defined.

(** ** C3 *)

(** C3 (counterexample): a [ShiftLeft] from the initial position panics
    (no typed error is returned), and 30000 [ShiftRight] on the 30000-cell
    tape finish normally with the pointer one past the last cell. *)
Lemma C3_counterexample :
  interpret 10 "<" [] = Panicked SubOverflow /\
  match _interpret 30010 (repeat ShiftRight 30000) (initial_state []) with
  | Done st => ptr st = 30000 /\ Z.of_nat (length (data st)) = 30000
  | _ => False
  end.
Proof. split; vm_compute; [reflexivity | split; reflexivity]. Qed.

(** C3 (amended): pointer moves are not checked against the tape and never
    give a typed error.  [ShiftLeft] at cell 0 panics (usize underflow);
    [ShiftRight] moves the pointer past the last cell without error, and
    from there every access to the current cell ([Incr], [Decr], [Output],
    the loop test, [Input] once a byte is read) panics with an index out of
    bounds.  The evaluator never returns [Err], and a finished run leaves
    the tape length unchanged. *)
Theorem C3_pointer_unchecked : forall fuel st,
  (ptr st = 0 -> interpret_node (S fuel) ShiftLeft st = Panicked SubOverflow) /\
  (0 <= ptr st < usize_max ->
     interpret_node (S fuel) ShiftRight st = Done (set_ptr st (ptr st + 1))) /\
  (Z.of_nat (length (data st)) <= ptr st -> forall node,
     In node [Incr; Decr; Output] \/ (exists children, node = Loop children) \/
     (node = Input /\ stdin st <> []) ->
     interpret_node (S fuel) node st = Panicked IndexOutOfBounds) /\
  (forall ast msg, _interpret fuel ast st <> Failed msg) /\
  (forall ast st', _interpret fuel ast st = Done st' -> length (data st') = length (data st)).
Proof.
  intros fuel st. split; [|split; [|split; [|split]]].
  - intros H. simpl. rewrite H. reflexivity.
  - intros H. simpl. replace (ptr st <? usize_max) with true by lia. reflexivity.
  - intros H node Hn.
    assert (Hc : cell st = None) by (unfold cell; replace (ptr st <? _) with false by lia; reflexivity).
    destruct Hn as [Hn | [[children ->] | [-> Hin]]].
    + simpl in Hn. destruct Hn as [<- | [<- | [<- | []]]]; simpl; rewrite Hc; reflexivity.
    + simpl. rewrite Hc. reflexivity.
    + simpl. destruct (stdin st) as [|b rest]; [contradiction|].
      destruct st as [d p i o]; unfold cell in *; simpl in *. rewrite Hc. reflexivity.
  - intros ast. exact (proj1 (interpret_never_failed fuel) ast st).
  - intros ast. exact (proj1 (interpret_tape_length fuel) ast st).
Qed.

Lemma C3_witness :
  interpret_node 1 ShiftLeft (initial_state []) = Panicked SubOverflow /\
  interpret_node 1 Incr (mkState [0] 1 [] []) = Panicked IndexOutOfBounds.
Proof.
  split.
  - apply (proj1 (C3_pointer_unchecked 0 (initial_state []))). reflexivity.
  - refine (proj1 (proj2 (proj2 (C3_pointer_unchecked 0 (mkState [0] 1 [] []))))
              _ Incr _).
    + simpl. lia.
    + left. simpl. left. reflexivity.
Defined.

(** ** C4 *)

(** C4: a [Loop] tests the current cell before every pass, the first one
    included: on a zero cell it does nothing, on a nonzero cell it runs the
    whole body and then tests again.  Running "+[-.]" from the initial state
    terminates having written exactly the byte 0 and read nothing. *)
Theorem C4_loop_while :
  (forall fuel st children, cell st = Some 0 ->
     interpret_node (S fuel) (Loop children) st = Done st) /\
  (forall fuel st children v, cell st = Some v -> v <> 0 ->
     interpret_node (S fuel) (Loop children) st =
       match _interpret fuel children st with
       | Done st' => interpret_node fuel (Loop children) st'
       | o => o
       end) /\
  (forall fuel inp, (20 <= fuel)%nat ->
     exists st, interpret fuel "+[-.]" inp = Done st /\ stdout st = [0] /\ stdin st = inp).
Proof.
  split; [|split].
  - intros fuel st children Hc. simpl. rewrite Hc. reflexivity.
  - intros fuel st children v Hc Hv. simpl. rewrite Hc.
    replace (v =? 0) with false by lia. reflexivity.
  - intros fuel inp Hf.
    assert (E : match _interpret 20 [Incr; Loop [Decr; Output]] (initial_state inp) with
                | Done st => stdout st = [0] /\ stdin st = inp
                | _ => False
                end) by (vm_compute; split; reflexivity).
    destruct (_interpret 20 [Incr; Loop [Decr; Output]] (initial_state inp))
      as [st| | |] eqn:E2; try contradiction.
    exists st. split; [|exact E].
    change (interpret fuel "+[-.]" inp)
      with (_interpret fuel [Incr; Loop [Decr; Output]] (initial_state inp)).
    rewrite (proj1 (interpret_fuel_mono 20) _ _ _ Hf) by (rewrite E2; discriminate).
    exact E2.
Qed.

Lemma C4_witness :
  interpret_node 1 (Loop [Decr; Output]) (initial_state []) = Done (initial_state []) /\
  exists st, interpret 20 "+[-.]" [] = Done st /\ stdout st = [0] /\ stdin st = [].
Proof.
  destruct C4_loop_while as [H0 [_ H2]]. split.
  - apply H0. vm_compute. reflexivity.
  - apply H2. apply le_n.
Defined.

(** ** C5 *)

(** C5 (counterexample): an [Input] at the end of standard input panics (the
    [unwrap] of the failed [read_exact]); there is neither a typed error nor
    an unchanged cell. *)
Lemma C5_counterexample : interpret 10 "," [] = Panicked UnwrapReadExact.
Proof. vm_compute. reflexivity. Qed.

(** C5 (amended): [Input] reads exactly one byte of standard input into the
    current cell, consuming it; when standard input is exhausted the
    evaluator panics, aborting the process, instead of returning a typed
    error or leaving the cell unchanged. *)
Theorem C5_input_eof_panics : forall fuel st,
  (stdin st = [] -> interpret_node (S fuel) Input st = Panicked UnwrapReadExact) /\
  (forall b rest, stdin st = b :: rest -> cell st <> None ->
     interpret_node (S fuel) Input st =
       Done (mkState (list_set (data st) (Z.to_nat (ptr st)) b) (ptr st) rest (stdout st))).
Proof.
  intros fuel [d p i o]; simpl. split.
  - intros ->. reflexivity.
  - intros b rest -> Hc. unfold cell in *; simpl in *.
    destruct (p <? Z.of_nat (length d)); [|contradiction].
    destruct (nth_error d (Z.to_nat p)); [reflexivity | contradiction].
Qed.

Lemma C5_witness :
  interpret_node 1 Input (initial_state []) = Panicked UnwrapReadExact /\
  interpret_node 1 Input (mkState [0] 0 [7] []) = Done (mkState [7] 0 [] []).
Proof.
  split.
  - apply (proj1 (C5_input_eof_panics 0 (initial_state []))). reflexivity.
  - apply (proj2 (C5_input_eof_panics 0 (mkState [0] 0 [7] [])) 7 []).
    + reflexivity.
    + vm_compute. discriminate.
Defined.

(** ** C6 *)

(** C6: [tokenize] gives one token per character of the text, in order,
    characters being decoded from UTF-8 as [str::chars] does: the six
    expression symbols become [Expr] of themselves, "[" and "]" the loop
    tokens, and every other character, ASCII or not, [Comment].  A text of
    ASCII bytes has one character per byte; "a\u{e9}+" (four bytes, three
    characters) gives three tokens.  (Being a total Rocq function, it never
    fails.) *)
Theorem C6_tokenize_one_per_char :
  (forall s, length (tokenize s) = length (chars s)) /\
  (forall s i c, nth_error (chars s) i = Some c -> nth_error (tokenize s) i = Some (token_of_char c)) /\
  (forall c, In c expr_chars -> token_of_char (AsciiChar c) = Expr c) /\
  token_of_char (AsciiChar "[") = OpenLoop /\ token_of_char (AsciiChar "]") = CloseLoop /\
  (forall c, ~ In c instruction_chars -> token_of_char (AsciiChar c) = Comment) /\
  (forall code, token_of_char (OtherChar code) = Comment) /\
  (forall s, forallb (fun b => byte b <? 128) (list_ascii_of_string s) = true ->
     chars s = map AsciiChar (list_ascii_of_string s)) /\
  (chars (String "a" (String "195" (String "169" "+"))) = [AsciiChar "a"; OtherChar 233; AsciiChar "+"] /\
   tokenize (String "a" (String "195" (String "169" "+"))) = [Comment; Comment; Expr "+"]).
Proof.
  split; [|split; [|split; [|split; [|split; [|split; [|split; [|split]]]]]]].
  - intros s. unfold tokenize. apply length_map.
  - intros s i c H. unfold tokenize. rewrite nth_error_map, H. reflexivity.
  - intros c H. simpl in H.
    repeat (destruct H as [<- | H]; [reflexivity|]). destruct H.
  - reflexivity.
  - reflexivity.
  - intros [[] [] [] [] [] [] [] []] H; try reflexivity;
      exfalso; apply H; simpl; tauto.
  - reflexivity.
  - intros s H. apply utf8_decode_ascii. exact H.
  - split; reflexivity.
Qed.

Lemma C6_witness :
  nth_error (tokenize "a+[") 1 = Some (Expr "+") /\
  chars "a+"%string = [AsciiChar "a"; AsciiChar "+"].
Proof.
  destruct C6_tokenize_one_per_char as [_ [Hget [Hexpr [_ [_ [_ [_ [Hascii _]]]]]]]].
  split.
  - rewrite (Hget "a+["%string 1%nat (AsciiChar "+") eq_refl).
    rewrite (Hexpr "+"%char); [reflexivity | simpl; tauto].
  - apply (Hascii "a+"%string). reflexivity.
Defined.

(** ** C7 *)

(** C7: the empty program parses to the empty sequence, and running it
    writes nothing, reads nothing, and leaves the tape all zero with the
    pointer at 0. *)
Theorem C7_empty_program :
  parse "" = Some (Ok []) /\
  forall fuel inp, exists st, interpret (S fuel) "" inp = Done st /\
    stdout st = [] /\ stdin st = inp /\ data st = repeat 0 tape_len /\ ptr st = 0.
Proof.
  split; [reflexivity|].
  intros fuel inp. exists (initial_state inp). repeat split.
Qed.

(** ** C8 *)

(** C8: two programs that differ only by non-instruction characters parse
    to the same tree and produce the same run, hence the same output. *)
Theorem C8_comment_transparency : forall s t, strip s = strip t ->
  parse s = parse t /\ forall fuel inp, interpret fuel s inp = interpret fuel t inp.
Proof.
  intros s t H.
  assert (Hp : parse s = parse t)
    by (rewrite (parse_strip s), (parse_strip t), H; reflexivity).
  split; [exact Hp|]. intros fuel inp. unfold interpret. rewrite Hp. reflexivity.
Qed.

Lemma C8_witness :
  parse "+[-.]" = parse "a+ [ -x. ]z" /\
  interpret 20 "+[-.]" [] = interpret 20 "a+ [ -x. ]z" [].
Proof.
  destruct (C8_comment_transparency "+[-.]" "a+ [ -x. ]z") as [H1 H2].
  - vm_compute. reflexivity.
  - split; [exact H1 | apply H2].
Defined.

(** ** C9 *)

(** C9: [tokenize] only produces [Expr] tokens carrying one of the six
    expression symbols, so parsing never takes the "unknown expression"
    error branch. *)
Theorem C9_unknown_expression_unreachable :
  (forall s c, In (Expr c) (tokenize s) -> In c expr_chars) /\
  (forall s, parse s <> Some (Err "unknown expression")).
Proof.
  split.
  - intros s c H. unfold tokenize in H. apply in_map_iff in H as [x [Hx _]].
    pose proof (token_of_char_valid x) as Hv. rewrite Hx in Hv. unfold valid_token in Hv.
    apply existsb_exists in Hv as [y [Hy Heq]].
    apply Ascii.eqb_eq in Heq. subst y. exact Hy.
  - intros s. destruct (parse_ok s) as [a ->]. discriminate.
Qed.

Lemma C9_witness : In "+"%char expr_chars.
Proof.
  apply (proj1 C9_unknown_expression_unreachable "+"%string "+"%char). simpl. left. reflexivity.
Defined.

(** ** C10 *)

(** C10: when a "]" is met at the outermost level (every "[" before it is
    closed before it), parsing succeeds with exactly the nodes built from
    the text before it and ignores everything after it; e.g. "+]+" parses
    to [[Incr]]. *)
Theorem C10_outer_close_truncates :
  (forall p q, balanced (tokenize p) ->
     parse (p ++ String "]" q) = parse p /\ exists a, parse p = Some (Ok a)) /\
  parse "+]+" = Some (Ok [Incr]).
Proof.
  split; [|reflexivity].
  intros p q Hb. destruct (parse_ok p) as [a Ha]. split; [|exists a; exact Ha].
  rewrite Ha. rewrite parse_drop_comments in *. rewrite drop_comments_tokenize_app.
  change (tokenize (String "]" q)) with (CloseLoop :: tokenize q).
  change (drop_comments (CloseLoop :: tokenize q)) with (CloseLoop :: drop_comments (tokenize q)).
  destruct (build (drop_comments (tokenize p)) []) as [[r rest]|] eqn:E; [|discriminate].
  inversion Ha; subst.
  assert (Hb' : balanced (drop_comments (tokenize p)))
    by (unfold balanced; rewrite depth_drop_comments; exact Hb).
  rewrite (build_balanced_close _ _ (le_n _) Hb' (drop_comments (tokenize q)) [] _ _ E).
  reflexivity.
Qed.

Lemma C10_witness : parse ("[+]-" ++ String "]" "+++") = parse "[+]-".
Proof.
  apply (proj1 C10_outer_close_truncates "[+]-"%string "+++"%string). reflexivity.
Defined.

(** * Further properties of the code *)

(** ** Evaluator *)

Section EvalExtra.

(** X: running [a ++ b] is running [a] and then [b] on the state [a] left;
    a panic in [a] is a panic of [a ++ b]. *)
Theorem interpret_app : forall a b st fuel1,
  (forall st1 fuel2 o, _interpret fuel1 a st = Done st1 ->
     _interpret fuel2 b st1 = o -> o <> OutOfFuel ->
     _interpret (fuel1 + fuel2) (a ++ b) st = o) /\
  (forall p fuel, (fuel1 <= fuel)%nat -> _interpret fuel1 a st = Panicked p ->
     _interpret fuel (a ++ b) st = Panicked p).
Proof.
  induction a as [|n a IH]; intros b st fuel1; split.
  - intros st1 fuel2 o H1 H2 Ho. destruct fuel1 as [|fuel1]; [discriminate|].
    simpl in H1. injection H1 as ->. simpl app.
    rewrite (proj1 (interpret_fuel_mono fuel2) b st1 (S fuel1 + fuel2)%nat ltac:(lia))
      by (rewrite H2; exact Ho).
    exact H2.
  - intros p fuel _ H. destruct fuel1; discriminate.
  - intros st1 fuel2 o H1 H2 Ho. destruct fuel1 as [|fuel1]; [discriminate|].
    simpl in H1 |- *.
    destruct (interpret_node fuel1 n st) as [s'| | |] eqn:E; try discriminate.
    rewrite (proj2 (interpret_fuel_mono fuel1) n st (fuel1 + fuel2)%nat ltac:(lia))
      by (rewrite E; discriminate).
    rewrite E. exact (proj1 (IH b s' fuel1) st1 fuel2 o H1 H2 Ho).
  - intros p fuel Hle H. destruct fuel1 as [|fuel1]; [discriminate|].
    destruct fuel as [|fuel]; [lia|]. simpl in H |- *.
    destruct (interpret_node fuel1 n st) as [s'| | |] eqn:E; try discriminate.
    + rewrite (proj2 (interpret_fuel_mono fuel1) n st fuel ltac:(lia))
        by (rewrite E; discriminate).
      rewrite E. apply (proj2 (IH b s' fuel1)); [lia | exact H].
    + rewrite (proj2 (interpret_fuel_mono fuel1) n st fuel ltac:(lia))
        by (rewrite E; discriminate).
      rewrite E. exact H.
Qed.

Lemma interpret_app_witness :
  _interpret 3 [Incr] (mkState [0] 0 [] []) = Done (mkState [1] 0 [] []) /\
  _interpret (3 + 3) ([Incr] ++ [Output]) (mkState [0] 0 [] []) = Done (mkState [1] 0 [] [1]).
Proof.
  assert (H1 : _interpret 3 [Incr] (mkState [0] 0 [] []) = Done (mkState [1] 0 [] []))
    by reflexivity.
  split; [exact H1|].
  apply (proj1 (interpret_app [Incr] [Output] (mkState [0] 0 [] []) 3%nat)
           (mkState [1] 0 [] []) 3%nat _ H1); [reflexivity | discriminate].
Defined.

(** X: a run only appends to the output and only consumes input from the
    front. *)
Theorem interpret_io_monotone : forall fuel,
  (forall ast st st', _interpret fuel ast st = Done st' ->
     (exists w, stdout st' = stdout st ++ w) /\ (exists r, stdin st = r ++ stdin st')) /\
  (forall node st st', interpret_node fuel node st = Done st' ->
     (exists w, stdout st' = stdout st ++ w) /\ (exists r, stdin st = r ++ stdin st')).
Proof.
  induction fuel as [|fuel [IH1 IH2]]; split; intros x st st' H; try discriminate.
  - destruct x as [|node ast']; simpl in H.
    + inversion H; subst. split; exists []; rewrite ?app_nil_r; reflexivity.
    + destruct (interpret_node fuel node st) as [s1| | |] eqn:E; try discriminate.
      destruct (IH2 _ _ _ E) as [[w1 Hw1] [r1 Hr1]].
      destruct (IH1 _ _ _ H) as [[w2 Hw2] [r2 Hr2]].
      split; [exists (w1 ++ w2) | exists (r1 ++ r2)].
      * rewrite Hw2, Hw1, app_assoc. reflexivity.
      * rewrite Hr1, Hr2, app_assoc. reflexivity.
  - destruct x; simpl in H.
    7: { destruct (cell st) as [v|]; [|discriminate].
         destruct (v =? 0).
         { inversion H; subst. split; exists []; rewrite ?app_nil_r; reflexivity. }
         destruct (_interpret fuel children st) as [s1| | |] eqn:E; try discriminate.
         destruct (IH1 _ _ _ E) as [[w1 Hw1] [r1 Hr1]].
         destruct (IH2 _ _ _ H) as [[w2 Hw2] [r2 Hr2]].
         split; [exists (w1 ++ w2) | exists (r1 ++ r2)].
         - rewrite Hw2, Hw1, app_assoc. reflexivity.
         - rewrite Hr1, Hr2, app_assoc. reflexivity. }
    6: { destruct (stdin st) as [|b rest] eqn:Ei; [discriminate|].
         destruct (cell _); [|discriminate]. inversion H; subst. simpl.
         split; [exists []; rewrite app_nil_r; reflexivity | exists [b]; reflexivity]. }
    5: { destruct (cell st) as [v|]; [|discriminate]. inversion H; subst. simpl.
         split; [exists [v]; reflexivity | exists []; reflexivity]. }
    all: repeat match goal with
         | H : context [match ?e with _ => _ end] |- _ => destruct e eqn:?
         end; try discriminate; inversion H; subst; simpl;
         (split; exists []; rewrite ?app_nil_r; reflexivity).
Qed.

Lemma interpret_io_monotone_witness :
  exists w, stdout (mkState [7] 0 [] [7]) = stdout (mkState [0] 0 [7] []) ++ w.
Proof.
  apply (proj1 (proj1 (interpret_io_monotone 6%nat) [Input; Output] (mkState [0] 0 [7] [])
                 (mkState [7] 0 [] [7]) eq_refl)).
Defined.

End EvalExtra.

Section EvalInvariants.

Lemma list_set_Forall : forall {A} (P : A -> Prop) l n v,
  Forall P l -> P v -> Forall P (list_set l n v).
Proof.
  intros A P l. induction l as [|x l IH]; intros [|n] v Hl Hv; simpl; auto.
  - inversion Hl; subst. constructor; auto.
  - inversion Hl; subst. constructor; auto.
Qed.

Lemma cell_byte : forall st v, bytes (data st) -> cell st = Some v -> 0 <= v <= u8_max.
Proof.
  intros st v Hb Hc. unfold cell in Hc.
  destruct (ptr st <? _); [|discriminate].
  apply nth_error_In in Hc. exact (proj1 (Forall_forall _ _) Hb v Hc).
Qed.

(** X: the evaluator keeps cells, input and output bytes in [0, 255] and
    the pointer in the [usize] range. *)
Theorem interpret_state_ok : forall fuel,
  (forall ast st st', state_ok st -> _interpret fuel ast st = Done st' -> state_ok st') /\
  (forall node st st', state_ok st -> interpret_node fuel node st = Done st' -> state_ok st').
Proof.
  unfold state_ok, bytes.
  induction fuel as [|fuel [IH1 IH2]]; split; intros x st st' Hok H; try discriminate.
  - destruct x as [|node ast']; simpl in H; [inversion H; subst; exact Hok|].
    destruct (interpret_node fuel node st) as [s1| | |] eqn:E; try discriminate.
    exact (IH1 _ _ _ (IH2 _ _ _ Hok E) H).
  - destruct Hok as [Hd [Hi [Ho Hp]]].
    destruct x; simpl in H.
    + destruct (cell st) as [v|] eqn:Ec; [|discriminate].
      pose proof (cell_byte _ _ Hd Ec) as Hv. unfold u8_max in *.
      destruct (v <? 255) eqn:Elt; [|discriminate]. apply Z.ltb_lt in Elt.
      inversion H; subst. simpl.
      refine (conj _ (conj Hi (conj Ho Hp))). apply list_set_Forall; [exact Hd | lia].
    + destruct (cell st) as [v|] eqn:Ec; [|discriminate].
      pose proof (cell_byte _ _ Hd Ec) as Hv. unfold u8_max in *.
      destruct (0 <? v) eqn:Elt; [|discriminate]. apply Z.ltb_lt in Elt.
      inversion H; subst. simpl.
      refine (conj _ (conj Hi (conj Ho Hp))). apply list_set_Forall; [exact Hd | lia].
    + destruct (0 <? ptr st) eqn:Elt; [|discriminate]. apply Z.ltb_lt in Elt.
      inversion H; subst. simpl. refine (conj Hd (conj Hi (conj Ho _))). lia.
    + destruct (ptr st <? usize_max) eqn:Elt; [|discriminate]. apply Z.ltb_lt in Elt.
      inversion H; subst. simpl. refine (conj Hd (conj Hi (conj Ho _))). lia.
    + destruct (cell st) as [v|] eqn:Ec; [|discriminate].
      pose proof (cell_byte _ _ Hd Ec) as Hv. inversion H; subst. simpl.
      refine (conj Hd (conj Hi (conj _ Hp))). apply Forall_app. split; [exact Ho|].
      constructor; [exact Hv | constructor].
    + destruct (stdin st) as [|b rest] eqn:Es; [discriminate|].
      destruct (cell _); [|discriminate]. inversion H; subst. simpl.
      try rewrite Es in Hi. inversion Hi; subst.
      refine (conj _ (conj _ (conj Ho Hp))); [apply list_set_Forall|]; assumption.
    + destruct (cell st) as [v|]; [|discriminate].
      destruct (v =? 0); [inversion H; subst; exact (conj Hd (conj Hi (conj Ho Hp)))|].
      destruct (_interpret fuel children st) as [s1| | |] eqn:E; try discriminate.
      exact (IH2 _ _ _ (IH1 _ _ _ (conj Hd (conj Hi (conj Ho Hp))) E) H).
Qed.

Lemma interpret_state_ok_witness : state_ok (mkState [7] 0 [] [7]).
Proof.
  apply (proj1 (interpret_state_ok 6%nat) [Input; Output] (mkState [0] 0 [7] [])).
  - unfold state_ok, bytes, usize_max, u8_max. simpl.
    split; [constructor; [lia | constructor]|].
    split; [constructor; [lia | constructor]|].
    split; [constructor | lia].
  - reflexivity.
Defined.

(** X: a [Loop] node that finishes leaves the pointer on a cell holding 0. *)
Theorem loop_exit_zero : forall fuel children st st',
  interpret_node fuel (Loop children) st = Done st' -> cell st' = Some 0.
Proof.
  induction fuel as [|fuel IH]; intros children st st' H; [discriminate|].
  simpl in H. destruct (cell st) as [v|] eqn:Ec; [|discriminate].
  destruct (v =? 0) eqn:Ev.
  - inversion H; subst. apply Z.eqb_eq in Ev. subst. exact Ec.
  - destruct (_interpret fuel children st) as [s1| | |]; try discriminate.
    exact (IH _ _ _ H).
Qed.

Lemma loop_exit_zero_witness : cell (mkState [0] 0 [] []) = Some 0.
Proof.
  apply (loop_exit_zero 5%nat [Decr] (mkState [3] 0 [] [])). reflexivity.
Defined.

(** X: a [Loop] with an empty body started on a nonzero cell never finishes,
    whatever the fuel. *)
Theorem empty_loop_diverges : forall fuel st v,
  cell st = Some v -> v <> 0 -> interpret_node fuel (Loop []) st = OutOfFuel.
Proof.
  induction fuel as [|fuel IH]; intros st v Hc Hv; [reflexivity|].
  simpl. rewrite Hc. replace (v =? 0) with false by lia.
  destruct fuel as [|fuel]; [reflexivity|].
  simpl. exact (IH st v Hc Hv).
Qed.

Lemma empty_loop_diverges_witness :
  interpret_node 1000 (Loop []) (mkState [1] 0 [] []) = OutOfFuel.
Proof. apply (empty_loop_diverges 1000%nat _ 1); [reflexivity | discriminate]. Defined.

End EvalInvariants.

Section EvalIO.

Ltac done_cases H :=
  repeat match goal with
  | H : context [match ?e with _ => _ end] |- _ => destruct e eqn:?
  end; try discriminate; inversion H; subst; reflexivity.

(** X: a program without an [Output] node (at any depth) writes nothing. *)
Theorem no_output_node_writes_nothing : forall fuel,
  (forall ast st st', forallb (fun n => negb (writes n)) ast = true ->
     _interpret fuel ast st = Done st' -> stdout st' = stdout st) /\
  (forall node st st', writes node = false ->
     interpret_node fuel node st = Done st' -> stdout st' = stdout st).
Proof.
  induction fuel as [|fuel [IH1 IH2]]; split; intros x st st' Hw H; try discriminate.
  - destruct x as [|node ast']; simpl in H; [inversion H; reflexivity|].
    simpl in Hw. apply andb_prop in Hw as [Hn Hw]. apply negb_true_iff in Hn.
    destruct (interpret_node fuel node st) as [s1| | |] eqn:E; try discriminate.
    rewrite (IH1 _ _ _ Hw H). exact (IH2 _ _ _ Hn E).
  - destruct x; simpl in H; try (simpl in Hw; discriminate Hw).
    6: { destruct (cell st) as [v|]; [|discriminate].
         destruct (v =? 0); [inversion H; reflexivity|].
         destruct (_interpret fuel children st) as [s1| | |] eqn:E; try discriminate.
         assert (Hc : forallb (fun n => negb (writes n)) children = true).
         { simpl in Hw. apply forallb_forall. intros y Hy. apply negb_true_iff.
           destruct (writes y) eqn:Ey; [|reflexivity].
           rewrite <- Hw. symmetry. apply existsb_exists. exists y. split; assumption. }
         rewrite (IH2 _ _ _ Hw H). exact (IH1 _ _ _ Hc E). }
    all: done_cases H.
Qed.

Lemma no_output_node_writes_nothing_witness : stdout (mkState [0] 0 [] [5]) = [5].
Proof.
  apply (proj1 (no_output_node_writes_nothing 10%nat) [Incr; Loop [Decr]]
           (mkState [0] 0 [] [5])); reflexivity.
Defined.

(** X: a program without an [Input] node (at any depth) reads nothing. *)
Theorem no_input_node_reads_nothing : forall fuel,
  (forall ast st st', forallb (fun n => negb (reads n)) ast = true ->
     _interpret fuel ast st = Done st' -> stdin st' = stdin st) /\
  (forall node st st', reads node = false ->
     interpret_node fuel node st = Done st' -> stdin st' = stdin st).
Proof.
  induction fuel as [|fuel [IH1 IH2]]; split; intros x st st' Hr H; try discriminate.
  - destruct x as [|node ast']; simpl in H; [inversion H; reflexivity|].
    simpl in Hr. apply andb_prop in Hr as [Hn Hr]. apply negb_true_iff in Hn.
    destruct (interpret_node fuel node st) as [s1| | |] eqn:E; try discriminate.
    rewrite (IH1 _ _ _ Hr H). exact (IH2 _ _ _ Hn E).
  - destruct x; simpl in H; try (simpl in Hr; discriminate Hr).
    6: { destruct (cell st) as [v|]; [|discriminate].
         destruct (v =? 0); [inversion H; reflexivity|].
         destruct (_interpret fuel children st) as [s1| | |] eqn:E; try discriminate.
         assert (Hc : forallb (fun n => negb (reads n)) children = true).
         { simpl in Hr. apply forallb_forall. intros y Hy. apply negb_true_iff.
           destruct (reads y) eqn:Ey; [|reflexivity].
           rewrite <- Hr. symmetry. apply existsb_exists. exists y. split; assumption. }
         rewrite (IH2 _ _ _ Hr H). exact (IH1 _ _ _ Hc E). }
    all: done_cases H.
Qed.

Lemma no_input_node_reads_nothing_witness : stdin (mkState [1] 0 [4] [1]) = [4].
Proof.
  apply (proj1 (no_input_node_reads_nothing 10%nat) [Incr; Output]
           (mkState [0] 0 [4] [])); reflexivity.
Defined.

Lemma list_set_same : forall {A} (l : list A) n x,
  nth_error l n = Some x -> list_set l n x = l.
Proof.
  induction l as [|y l IH]; intros [|n] x H; simpl in *; try discriminate.
  - inversion H; reflexivity.
  - rewrite (IH n x H). reflexivity.
Qed.

Lemma list_set_twice : forall {A} (l : list A) n a b,
  list_set (list_set l n a) n b = list_set l n b.
Proof. induction l as [|y l IH]; intros [|n] a b; simpl; try rewrite IH; reflexivity. Qed.

Lemma nth_error_list_set : forall {A} (l : list A) n v,
  (n < length l)%nat -> nth_error (list_set l n v) n = Some v.
Proof.
  induction l as [|y l IH]; intros [|n] v H; simpl in *; try lia; try reflexivity.
  apply IH. lia.
Qed.

Lemma cell_set_cell : forall st v w, cell st = Some v -> cell (set_cell st w) = Some w.
Proof.
  intros [d p i o] v w H. unfold cell, set_cell in *. simpl in *.
  rewrite length_list_set.
  destruct (p <? Z.of_nat (length d)) eqn:E; [|discriminate].
  apply nth_error_list_set. apply nth_error_Some. rewrite H. discriminate.
Qed.

Lemma loop_step : forall fuel children st v, cell st = Some v -> v <> 0 ->
  interpret_node (S fuel) (Loop children) st =
  match _interpret fuel children st with
  | Done st' => interpret_node fuel (Loop children) st'
  | o => o
  end.
Proof.
  intros fuel children st v Hc Hv. simpl. rewrite Hc.
  replace (v =? 0) with false by (symmetry; apply Z.eqb_neq; exact Hv). reflexivity.
Qed.

Lemma decr_step : forall fuel st v, cell st = Some v -> 0 < v ->
  _interpret (S (S fuel)) [Decr] st = Done (set_cell st (v - 1)).
Proof.
  intros fuel st v Hc Hv. destruct fuel; simpl; rewrite Hc;
    replace (0 <? v) with true by (symmetry; apply Z.ltb_lt; exact Hv); reflexivity.
Qed.

(** X: the loop "[-]" empties the current cell: started on a cell holding
    [n], it finishes (with fuel [n + 3] or more) with that cell at 0 and
    nothing else changed. *)
Theorem clear_loop_zeroes_cell : forall n st fuel,
  cell st = Some (Z.of_nat n) -> (n + 3 <= fuel)%nat ->
  interpret_node fuel (Loop [Decr]) st = Done (set_cell st 0).
Proof.
  induction n as [|n IH]; intros st fuel Hc Hf.
  - destruct fuel as [|fuel]; [lia|]. simpl. rewrite Hc. simpl. f_equal.
    destruct st as [d p i o]. unfold set_cell, cell in *. simpl in *.
    destruct (p <? _); [|discriminate]. rewrite (list_set_same _ _ _ Hc). reflexivity.
  - destruct fuel as [|fuel]; [lia|].
    rewrite (loop_step fuel [Decr] st _ Hc) by lia.
    destruct fuel as [|[|fuel]]; [lia | lia|].
    rewrite (decr_step fuel st _ Hc) by lia.
    pose proof (cell_set_cell st _ (Z.of_nat (S n) - 1) Hc) as Hc'.
    replace (Z.of_nat (S n) - 1) with (Z.of_nat n) in * by lia.
    rewrite (IH _ (S (S fuel)) Hc' ltac:(lia)).
    f_equal. unfold set_cell. simpl. rewrite list_set_twice. reflexivity.
Qed.

Lemma clear_loop_zeroes_cell_witness :
  interpret_node 10 (Loop [Decr]) (mkState [9; 5] 1 [] []) = Done (mkState [9; 0] 1 [] []).
Proof. apply (clear_loop_zeroes_cell 5 (mkState [9; 5] 1 [] [])); [reflexivity | lia]. Defined.

(** X: [interpret] never returns [Err]: parsing never fails and the
    evaluator never builds an error, so its outcome is a finished run, a
    panic, or a run that does not finish. *)
Theorem interpret_never_err : forall fuel input stdin_bytes msg,
  interpret fuel input stdin_bytes <> Failed msg.
Proof.
  intros fuel input stdin_bytes msg. unfold interpret.
  destruct (parse_ok input) as [a ->].
  apply (proj1 (interpret_never_failed fuel)).
Qed.

End EvalIO.

(** ** The command line *)

Section MainFacts.

(** X: with fewer than two arguments [main] never reads a file nor runs a
    program: an argument that is not valid UTF-8 makes [std::env::args]
    panic; otherwise, with none it panics on [args[0]], and with one it
    prints the usage line naming [args[0]]. *)
Theorem main_few_args : forall args fs fuel stdin_bytes,
  (length args < 2)%nat ->
  main args fs fuel stdin_bytes =
    (if forallb (fun a => valid_utf8 (list_ascii_of_string a)) args then
       match args with
       | [] => MainPanicked ArgsIndexOutOfBounds
       | a0 :: _ => Usage ("usage: " ++ a0 ++ " brainfuck")
       end
     else MainPanicked ArgsNotUnicode) /\
  (forall fs' fuel' stdin', main args fs' fuel' stdin' = main args fs fuel stdin_bytes).
Proof.
  intros args fs fuel stdin_bytes H. unfold main.
  replace ((length args <? 2)%nat) with true by (symmetry; apply Nat.ltb_lt; exact H).
  destruct (forallb (fun a => valid_utf8 (list_ascii_of_string a)) args);
    split; reflexivity.
Qed.

Lemma main_few_args_witness :
  main ["bf"%string] (fun _ => None) 0 [] = Usage "usage: bf brainfuck" /\
  main [String "255" EmptyString] (fun _ => None) 0 [] = MainPanicked ArgsNotUnicode.
Proof.
  split.
  - apply (main_few_args ["bf"%string] (fun _ => None) 0 []). simpl. lia.
  - apply (main_few_args [String "255" EmptyString] (fun _ => None) 0 []). simpl. lia.
Defined.

(** X: with two or more arguments, [main] first needs every argument to be
    valid UTF-8 ([std::env::args] panics otherwise); then it runs the file
    named by [args[1]], the other arguments playing no further part: a
    file that cannot be read or is not valid UTF-8 panics in [unwrap], and
    otherwise the outcome is the evaluator's, the final [unwrap] of
    [interpret] never panicking. *)
Theorem main_runs_second_arg : forall args bf_file_path fs fuel stdin_bytes,
  nth_error args 1 = Some bf_file_path ->
  (forallb (fun a => valid_utf8 (list_ascii_of_string a)) args = false ->
     main args fs fuel stdin_bytes = MainPanicked ArgsNotUnicode) /\
  (forallb (fun a => valid_utf8 (list_ascii_of_string a)) args = true ->
     (fs bf_file_path = None -> main args fs fuel stdin_bytes = MainPanicked ReadToStringUnwrap) /\
     (forall contents, fs bf_file_path = Some contents ->
        valid_utf8 (list_ascii_of_string contents) = false ->
        main args fs fuel stdin_bytes = MainPanicked ReadToStringUnwrap) /\
     (forall input, fs bf_file_path = Some input ->
        valid_utf8 (list_ascii_of_string input) = true ->
        main args fs fuel stdin_bytes =
          match interpret fuel input stdin_bytes with
          | Done st => Finished st
          | Panicked p => MainPanicked (EvalPanic p)
          | _ => MainOutOfFuel
          end)) /\
  (forall msg, main args fs fuel stdin_bytes <> MainPanicked (InterpretUnwrap msg)).
Proof.
  intros args path fs fuel stdin_bytes Hn.
  assert (Hl : (length args <? 2)%nat = false).
  { apply Nat.ltb_ge. destruct args as [|a0 [|a1 args]]; simpl in *; try discriminate; lia. }
  unfold main. rewrite Hl, Hn. split; [|split].
  - intros ->. reflexivity.
  - intros ->. split; [|split].
    + intros ->. reflexivity.
    + intros contents -> ->. reflexivity.
    + intros input -> ->. simpl.
      destruct (interpret fuel input stdin_bytes) eqn:E; try reflexivity.
      exfalso. exact (interpret_never_err _ _ _ _ E).
  - intros msg. destruct (negb _); [discriminate|].
    destruct (fs path) as [input|]; [|discriminate].
    destruct (negb _); [discriminate|].
    destruct (interpret fuel input stdin_bytes) eqn:E; try discriminate.
    exfalso. exact (interpret_never_err _ _ _ _ E).
Qed.

Lemma main_runs_second_arg_witness :
  main ["bf"; "p.bf"; String "255" EmptyString]%string (fun _ => Some "+"%string) 0 [] =
    MainPanicked ArgsNotUnicode /\
  main ["bf"; "p.bf"; "extra"]%string (fun _ => Some (String "255" EmptyString)) 0 [] =
    MainPanicked ReadToStringUnwrap.
Proof.
  split.
  - apply (proj1 (main_runs_second_arg ["bf"; "p.bf"; String "255" EmptyString]%string
                    "p.bf"%string (fun _ => Some "+"%string) 0 [] eq_refl)).
    reflexivity.
  - apply (proj1 (proj2 (proj1 (proj2 (main_runs_second_arg ["bf"; "p.bf"; "extra"]%string
                    "p.bf"%string (fun _ => Some (String "255" EmptyString)) 0 [] eq_refl))
                    eq_refl)) (String "255" EmptyString)); reflexivity.
Defined.

End MainFacts.

(** ** Parser *)

Section ParserExtra.

Local Open Scope nat_scope.

Lemma build_expr_node : forall c tokens ast,
  build (Expr c :: tokens) ast =
  match node_of_expr c with
  | Some n => build tokens (ast ++ [n])
  | None => Some (Err "unknown expression", tokens)
  end.
Proof. intros. rewrite build_expr. unfold node_of_expr. expr_cases; reflexivity. Qed.

Lemma valid_node_of_expr : forall c,
  existsb (Ascii.eqb c) expr_chars = true -> exists n, node_of_expr c = Some n.
Proof.
  intros c H. unfold node_of_expr. simpl in H.
  expr_cases; try (eexists; reflexivity); discriminate.
Qed.

Lemma build_print_seq : forall ast, Forall (fun n => forall acc X,
    build (map token_of_char (map AsciiChar (print_node n)) ++ X) acc = build X (acc ++ [n])) ast ->
  forall acc X, build (map token_of_char (map AsciiChar (print_seq ast)) ++ X) acc = build X (acc ++ ast).
Proof.
  induction ast as [|n ast IH]; intros Hall acc X.
  - simpl. rewrite app_nil_r. reflexivity.
  - inversion Hall; subst. simpl. rewrite !map_app, <- app_assoc.
    match goal with H : forall acc X, _ |- _ => rewrite H end.
    rewrite IH by assumption. rewrite <- app_assoc. reflexivity.
Qed.

Lemma build_print_node : forall n acc X,
  build (map token_of_char (map AsciiChar (print_node n)) ++ X) acc = build X (acc ++ [n]).
Proof.
  intros n. induction n as [| | | | | | children Hch] using node_ind';
    intros acc X;
    try (first [exact (build_expr ">" X acc) | exact (build_expr "<" X acc)
               | exact (build_expr "+" X acc) | exact (build_expr "-" X acc)
               | exact (build_expr "." X acc) | exact (build_expr "," X acc)]).
  change (print_node (Loop children)) with ("["%char :: print_seq children ++ ["]"%char]).
  simpl. rewrite build_open. rewrite !map_app, <- app_assoc. simpl.
  rewrite (build_print_seq children Hch). reflexivity.
Qed.

Lemma print_seq_Forall : forall (Q : ascii -> Prop) ast,
  Forall (fun n => Forall Q (print_node n)) ast -> Forall Q (print_seq ast).
Proof.
  intros Q. induction ast as [|n ast IH]; intros H; [constructor|].
  inversion H; subst. simpl. apply Forall_app. split; [assumption | apply IH; assumption].
Qed.

Lemma print_node_ascii : forall n, Forall (fun b => (byte b <? 128)%Z = true) (print_node n).
Proof.
  intros n. induction n as [| | | | | | children Hch] using node_ind';
    try (repeat constructor; fail).
  change (print_node (Loop children)) with ("["%char :: print_seq children ++ ["]"%char]).
  constructor; [reflexivity|]. apply Forall_app.
  split; [apply print_seq_Forall; exact Hch | repeat constructor].
Qed.

(** X: printing an instruction tree with [print] and parsing the text back
    gives the tree again. *)
Theorem parse_print : forall ast, parse (print ast) = Some (Ok ast).
Proof.
  intros ast. unfold parse, print, tokenize, chars.
  rewrite list_ascii_of_string_of_list_ascii.
  rewrite utf8_decode_ascii.
  - rewrite <- (app_nil_r (map token_of_char (map AsciiChar (print_seq ast)))).
    rewrite build_print_seq.
    + reflexivity.
    + apply Forall_forall. intros n _. apply build_print_node.
  - apply forallb_forall. apply Forall_forall. apply print_seq_Forall.
    apply Forall_forall. intros n _. apply print_node_ascii.
Qed.

Lemma build_acc : forall n tokens, length tokens <= n -> forall ast,
  build tokens ast =
  match build tokens [] with
  | Some (Ok r, rest) => Some (Ok (ast ++ r), rest)
  | o => o
  end.
Proof.
  induction n as [|n IH]; intros tokens Hlen ast.
  { destruct tokens; [rewrite !build_nil, app_nil_r; reflexivity | simpl in Hlen; lia]. }
  destruct tokens as [|tok t']; [rewrite !build_nil, app_nil_r; reflexivity|].
  simpl in Hlen.
  destruct tok.
  - rewrite !build_open.
    destruct (build t' []) as [[[children|e] rest]|] eqn:E; try reflexivity.
    destruct (build_rest_suffix _ _ _ _ E) as [pre ->].
    rewrite length_app in Hlen.
    rewrite (IH rest ltac:(lia) (ast ++ [Loop children])).
    rewrite (IH rest ltac:(lia) ([] ++ [Loop children])).
    destruct (build rest []) as [[[r|e] rest']|]; try reflexivity.
    rewrite <- app_assoc. reflexivity.
  - rewrite !build_close. rewrite app_nil_r. reflexivity.
  - rewrite !build_expr_node. destruct (node_of_expr c) as [m|]; [|reflexivity].
    rewrite (IH t' ltac:(lia) (ast ++ [m])), (IH t' ltac:(lia) ([] ++ [m])).
    destruct (build t' []) as [[[r|e] rest']|]; try reflexivity.
    rewrite <- app_assoc. reflexivity.
  - rewrite !build_comment. apply IH. lia.
Qed.

Lemma build_balanced_app : forall n tokens, length tokens <= n ->
  forallb valid_token tokens = true -> balanced tokens ->
  exists a, forall ast X, build (tokens ++ X) ast = build X (ast ++ a).
Proof.
  induction n as [|n IH]; intros tokens Hlen Hv Hb.
  { destruct tokens; [|simpl in Hlen; lia].
    exists []. intros. rewrite app_nil_r. reflexivity. }
  destruct tokens as [|tok t'].
  { exists []. intros. rewrite app_nil_r. reflexivity. }
  unfold balanced in Hb. simpl in Hlen, Hv, Hb. apply andb_prop in Hv as [Ht Hv].
  destruct tok.
  - destruct (depth_split _ t' 0 (le_n _) Hb) as [body [after [-> [Hbb Ha]]]].
    rewrite forallb_app in Hv. simpl in Hv.
    apply andb_prop in Hv as [Hvb Hva].
    rewrite length_app in Hlen. simpl in Hlen.
    destruct (IH body ltac:(lia) Hvb Hbb) as [ab Hab].
    destruct (IH after ltac:(lia) Hva Ha) as [aa Haa].
    exists (Loop ab :: aa). intros ast X.
    simpl. rewrite <- app_assoc. simpl. rewrite build_open, Hab, build_close.
    rewrite Haa, <- app_assoc. reflexivity.
  - discriminate.
  - destruct (valid_node_of_expr c Ht) as [m Hm].
    destruct (IH t' ltac:(lia) Hv Hb) as [a Ha].
    exists (m :: a). intros ast X. simpl. rewrite build_expr_node, Hm, Ha, <- app_assoc.
    reflexivity.
  - destruct (IH t' ltac:(lia) Hv Hb) as [a Ha].
    exists a. intros ast X. simpl. rewrite build_comment. apply Ha.
Qed.

(** X: when every "[" of [p] is closed within [p] and no "]" of [p] is at
    the outermost level, parsing [p ++ q] gives the nodes of [p] followed
    by the nodes of [q]. *)
Theorem parse_app_balanced : forall p q, balanced (tokenize p) ->
  exists a b, parse p = Some (Ok a) /\ parse q = Some (Ok b) /\
              parse (p ++ q) = Some (Ok (a ++ b)).
Proof.
  intros p q Hb.
  assert (Hbp : balanced (drop_comments (tokenize p)))
    by (unfold balanced; rewrite depth_drop_comments; exact Hb).
  destruct (build_balanced_app _ (drop_comments (tokenize p)) (le_n _)
              (valid_drop_comments _ (tokenize_valid p)) Hbp) as [a Ha].
  destruct (parse_ok q) as [b Hq].
  exists a, b. split; [|split; [exact Hq|]].
  - rewrite parse_drop_comments.
    rewrite <- (app_nil_r (drop_comments (tokenize p))), Ha. reflexivity.
  - rewrite parse_drop_comments in *. rewrite drop_comments_tokenize_app, Ha.
    rewrite (build_acc _ (drop_comments (tokenize q)) (le_n _)).
    destruct (build (drop_comments (tokenize q)) []) as [[[r|e] rest]|]; try discriminate.
    inversion Hq; subst. reflexivity.
Qed.

Lemma parse_app_balanced_witness :
  exists a b, parse "[-]" = Some (Ok a) /\ parse "+]" = Some (Ok b) /\
              parse ("[-]" ++ "+]") = Some (Ok (a ++ b)).
Proof. apply parse_app_balanced. reflexivity. Defined.

End ParserExtra.
